(** * Hallon: the event producer thread of [ext/hallon/events.c]

    The C function [event_producer] is the body of a Ruby thread that ferries
    events from libspotify's callbacks to a Ruby queue.  It loops forever:
    wait on the semaphore [event_full] without the GVL, call the handler the
    callback side left in [session_data->event], stop when it answers [Qnil],
    otherwise push the answer on [session_data->event_queue] and post
    [event_empty] (again without the GVL).

    The embedding keeps the shape of the C text.  The thread's code is a
    term of a small free monad over the primitive operations it performs;
    a step function runs it against the shared session data, interleaved
    with the callback side and with the other Ruby threads that compete
    for the GVL.  Every operation performed is logged, so that statements
    about program order are statements about a list. *)

From Stdlib Require Import ZArith List Bool Arith Lia.
From ExtLib Require Import Structures.Monad.
Import ListNotations.
Import MonadNotation.
Local Open Scope monad_scope.

Set Implicit Arguments.

(** A Ruby [VALUE] is an unsigned machine word. *)
Definition VALUE := Z.

(** The two semaphores of [hn_session_data_t]. *)
Inductive hn_sem_t := event_full | event_empty.

Definition hn_sem_eqb (a b : hn_sem_t) : bool :=
  match a, b with
  | event_full, event_full | event_empty, event_empty => true
  | _, _ => false
  end.

(** The threads that touch the session data. *)
Inductive tid := Producer | Callback | Consumer.

Definition tid_eqb (a b : tid) : bool :=
  match a, b with
  | Producer, Producer | Callback, Callback | Consumer, Consumer => true
  | _, _ => false
  end.

Inductive ctl := Continue | Break.

Section Bridge.

(** What [event->data] points to; the handler alone knows how to read it. *)
Variable Data : Type.

(** [Qnil] and [Qtrue] come from ruby.h; their encoding differs between
    Ruby versions and nothing below depends on it. *)
Variables Qnil Qtrue : VALUE.

(** [hn_event_t] (events.h): a handler and the data to call it with. *)
Record hn_event_t := { handler : Data -> VALUE; data : Data }.

(** The fields of [hn_session_data_t] (session.h) that [event_producer]
    uses.  A semaphore is its count.  [event_queue] lists the values pushed
    so far, oldest first; the consumer's draining is not part of this
    file's concern. *)
Record hn_session_data_t := {
  sem_count : hn_sem_t -> nat;
  event : hn_event_t;
  event_queue : list VALUE
}.

Definition set_sem (s : hn_sem_t) (n : nat) (sd : hn_session_data_t) :=
  {| sem_count := fun s' => if hn_sem_eqb s s' then n else sem_count sd s';
     event := event sd;
     event_queue := event_queue sd |}.

Definition set_event (e : hn_event_t) (sd : hn_session_data_t) :=
  {| sem_count := sem_count sd; event := e; event_queue := event_queue sd |}.

Definition set_event_queue (q : list VALUE) (sd : hn_session_data_t) :=
  {| sem_count := sem_count sd; event := event sd; event_queue := q |}.

(** ** Primitive operations and programs *)

(** What a thread can do in one atomic step; the index is the type of the
    answer. *)
Inductive op : Type -> Type :=
| GvlRelease : op unit
| GvlAcquire : op unit
| SemWait (s : hn_sem_t) : op Z
| SemPost (s : hn_sem_t) : op Z
| CallHandler : op VALUE
| QueuePush (v : VALUE) : op VALUE
| FillEvent (e : hn_event_t) : op unit.

(** Straight-line code: a tree of operations ending in a result. *)
Inductive prog (A : Type) : Type :=
| Ret (a : A)
| Vis (X : Type) (e : op X) (k : X -> prog A).

Arguments Ret {A} a.
Arguments Vis {A X} e k.

Fixpoint prog_bind {A B} (p : prog A) (f : A -> prog B) : prog B :=
  match p with
  | Ret a => f a
  | Vis e k => Vis e (fun x => prog_bind (k x) f)
  end.

#[local] Instance Monad_prog : Monad prog :=
  {| ret := fun _ a => Ret a; bind := fun _ _ p f => prog_bind p f |}.

Definition perform_op {X} (e : op X) : prog X := Vis e (fun x => Ret x).

(** ** The code of events.c *)

Definition hn_sem_wait (hn_sem : hn_sem_t) : prog Z := perform_op (SemWait hn_sem).
Definition hn_sem_post (hn_sem : hn_sem_t) : prog Z := perform_op (SemPost hn_sem).

(** Lines 8-9: the two wrappers only cast the [int] result to [VALUE]. *)
Definition hn_sem_wait_nogvl (hn_sem : hn_sem_t) : prog VALUE :=
  r <- hn_sem_wait hn_sem ;; ret (r : VALUE).
Definition hn_sem_post_nogvl (hn_sem : hn_sem_t) : prog VALUE :=
  r <- hn_sem_post hn_sem ;; ret (r : VALUE).

(** Modelled from the spec: the macro [hn_proc_without_gvl] of common.h is
    not among the sources.  Following section 4.2 ([runWithoutLock]) it
    releases the lock, runs the blocking operation, takes the lock again
    and returns the operation's result. *)
Definition hn_proc_without_gvl (fn : hn_sem_t -> prog VALUE) (data1 : hn_sem_t)
  : prog VALUE :=
  perform_op GvlRelease ;;
  r <- fn data1 ;;
  perform_op GvlAcquire ;;
  ret r.

(** [session_data->event->handler(session_data->event->data)] *)
Definition call_event_handler : prog VALUE := perform_op CallHandler.

(** [rb_funcall3(session_data->event_queue, push, 1, &ruby_event)], with
    [push] the method name interned at line 30: the queue's [push] puts its
    one argument at the tail. *)
Definition rb_funcall3_push (argv : VALUE) : prog VALUE :=
  perform_op (QueuePush argv).

(** Lines 34-53, one turn of [do { ... } while (1)]. *)
Definition event_producer_body : prog ctl :=
  hn_proc_without_gvl hn_sem_wait_nogvl event_full ;;
  ruby_event <- call_event_handler ;;
  if (ruby_event =? Qnil)%Z then ret Break
  else
    rb_funcall3_push ruby_event ;;
    hn_proc_without_gvl hn_sem_post_nogvl event_empty ;;
    ret Continue.

(** Line 55: what the function returns once the loop is left. *)
Definition event_producer_result : VALUE := Qtrue.

(** Modelled from the spec: the callbacks that libspotify invokes are not
    among the sources.  The comment above [event_producer] gives their
    protocol: [event_empty.wait], fill the work slot, [event_full.post]. *)
Definition libspotify_callback (e : hn_event_t) : prog unit :=
  hn_sem_wait event_empty ;;
  perform_op (FillEvent e) ;;
  hn_sem_post event_full ;;
  ret tt.

(** ** Running the threads *)

(** The producer is somewhere inside a turn of the loop, or has returned. *)
Inductive thread :=
| Run (p : prog ctl)
| Exited (v : VALUE).

(** [event_producer] on entry: about to run the body for the first time.
    The handler is taken to return; a handler that raises or aborts (the
    TODO of line 44) is outside this model. *)
Definition event_producer : thread := Run event_producer_body.

(** What an operation looked like from outside, once it completed. *)
Inductive obs :=
| ObsGvlRelease
| ObsGvlAcquire
| ObsWait (s : hn_sem_t)
| ObsPost (s : hn_sem_t)
| ObsHandler (v : VALUE)
| ObsPush (v : VALUE)
| ObsFill
| ObsReturn (v : VALUE).

Definition obs_of {X} (e : op X) : X -> obs :=
  match e in op X return X -> obs with
  | GvlRelease => fun _ => ObsGvlRelease
  | GvlAcquire => fun _ => ObsGvlAcquire
  | SemWait s => fun _ => ObsWait s
  | SemPost s => fun _ => ObsPost s
  | CallHandler => fun v => ObsHandler v
  | QueuePush v => fun _ => ObsPush v
  | FillEvent _ => fun _ => ObsFill
  end.

Record state := {
  session_data : hn_session_data_t;
  gvl : option tid;                  (* who holds the GVL *)
  producer : thread;
  callback : option (prog unit);     (* the callback invocation under way *)
  pending : list hn_event_t;         (* events libspotify has yet to deliver *)
  trace : list (tid * obs)           (* completed operations, oldest first *)
}.

(** Modelled from the spec: the semaphore functions behind [hn_sem_wait]
    and [hn_sem_post] (common.h) are not among the sources.  Section 4.1:
    [wait] blocks the caller until the count is positive and then
    decrements it; [post] increments the count.  [None] stands for a
    caller that stays blocked. *)
Definition count_after_wait (n : nat) : option nat :=
  match n with
  | O => None
  | S m => Some m
  end.

Definition count_after_post (n : nat) : nat := S n.

(** Modelled from the spec: the GVL is Ruby's, not the repository's.
    Sections 4.2 and 5: one global lock, held by at most one thread; only
    its holder can release it, and acquiring it blocks while another
    thread holds it. *)
Definition gvl_after_release (t : tid) (g : option tid) : option (option tid) :=
  match g with
  | Some t' => if tid_eqb t t' then Some None else None
  | None => None
  end.

Definition gvl_after_acquire (t : tid) (g : option tid) : option (option tid) :=
  match g with
  | None => Some (Some t)
  | Some _ => None
  end.

Arguments count_after_wait n /.
Arguments count_after_post n /.
Arguments gvl_after_release t g /.
Arguments gvl_after_acquire t g /.

(** The effect of one operation of thread [t] on the session data and on
    the GVL, with the operation's answer; [None] when [t] is blocked.  The
    semaphore operations answer 0, the handler call answers what the
    handler of the current event returns on its data, and the push puts
    its argument at the tail of the queue. *)
Definition perform {X} (t : tid) (e : op X) (sd : hn_session_data_t)
  (g : option tid) : option (X * hn_session_data_t * option tid) :=
  match e in op X return option (X * hn_session_data_t * option tid) with
  | GvlRelease =>
      match gvl_after_release t g with
      | Some g' => Some (tt, sd, g')
      | None => None
      end
  | GvlAcquire =>
      match gvl_after_acquire t g with
      | Some g' => Some (tt, sd, g')
      | None => None
      end
  | SemWait s =>
      match count_after_wait (sem_count sd s) with
      | Some n => Some (0%Z, set_sem s n sd, g)
      | None => None
      end
  | SemPost s =>
      Some (0%Z, set_sem s (count_after_post (sem_count sd s)) sd, g)
  | CallHandler => Some (handler (event sd) (data (event sd)), sd, g)
  | QueuePush v => Some (v, set_event_queue (event_queue sd ++ [v]) sd, g)
  | FillEvent e' => Some (tt, set_event e' sd, g)
  end.

(** One step of [event_producer].  A blocked thread stays where it is. *)
Definition step_producer (s : state) : state :=
  match producer s with
  | Exited _ => s
  | Run (Ret Continue) =>                         (* while (1) *)
      {| session_data := session_data s; gvl := gvl s;
         producer := Run event_producer_body;
         callback := callback s; pending := pending s; trace := trace s |}
  | Run (Ret Break) =>                            (* return Qtrue *)
      {| session_data := session_data s; gvl := gvl s;
         producer := Exited event_producer_result;
         callback := callback s; pending := pending s;
         trace := trace s ++ [(Producer, ObsReturn event_producer_result)] |}
  | Run (Vis e k) =>
      match perform Producer e (session_data s) (gvl s) with
      | None => s
      | Some (x, sd, g) =>
          {| session_data := sd; gvl := g;
             producer := Run (k x);
             callback := callback s; pending := pending s;
             trace := trace s ++ [(Producer, obs_of e x)] |}
      end
  end.

(** One step of the callback side: start the next invocation, advance the
    current one, or finish it. *)
Definition step_callback (s : state) : state :=
  match callback s with
  | None =>
      match pending s with
      | [] => s
      | e :: es =>
          {| session_data := session_data s; gvl := gvl s;
             producer := producer s;
             callback := Some (libspotify_callback e); pending := es;
             trace := trace s |}
      end
  | Some (Ret _) =>
      {| session_data := session_data s; gvl := gvl s;
         producer := producer s;
         callback := None; pending := pending s; trace := trace s |}
  | Some (Vis e k) =>
      match perform Callback e (session_data s) (gvl s) with
      | None => s
      | Some (x, sd, g) =>
          {| session_data := sd; gvl := g;
             producer := producer s;
             callback := Some (k x); pending := pending s;
             trace := trace s ++ [(Callback, obs_of e x)] |}
      end
  end.

(** The other Ruby threads: take the GVL when it is free, give it back
    when they hold it. *)
Definition step_consumer (s : state) : state :=
  match gvl s with
  | None =>
      {| session_data := session_data s; gvl := Some Consumer;
         producer := producer s; callback := callback s;
         pending := pending s;
         trace := trace s ++ [(Consumer, ObsGvlAcquire)] |}
  | Some Consumer =>
      {| session_data := session_data s; gvl := None;
         producer := producer s; callback := callback s;
         pending := pending s;
         trace := trace s ++ [(Consumer, ObsGvlRelease)] |}
  | Some _ => s
  end.

Definition step (t : tid) (s : state) : state :=
  match t with
  | Producer => step_producer s
  | Callback => step_callback s
  | Consumer => step_consumer s
  end.

(** A schedule names the thread that moves at each step. *)
Definition run (sched : list tid) (s : state) : state :=
  fold_left (fun st t => step t st) sched s.

(** The start: [event_full] is 0 and [event_empty] is 1 (comment, lines
    14-16); the producer is about to enter the loop and, being a Ruby
    thread, holds the GVL. *)
Definition init (q0 : list VALUE) (e0 : hn_event_t) (es : list hn_event_t)
  : state :=
  {| session_data :=
       {| sem_count := fun s => match s with event_full => 0 | event_empty => 1 end;
          event := e0;
          event_queue := q0 |};
     gvl := Some Producer;
     producer := event_producer;
     callback := None;
     pending := es;
     trace := [] |}.

(** ** Reading the log *)

(** The operations of one thread, in the order it performed them. *)
Definition proj (t : tid) (tr : list (tid * obs)) : list obs :=
  map snd (filter (fun x => tid_eqb (fst x) t) tr).

Definition ptrace (s : state) : list obs := proj Producer (trace s).
Definition ctrace (s : state) : list obs := proj Callback (trace s).

Definition count (f : obs -> bool) (l : list obs) : nat := length (filter f l).

Definition is_handler (o : obs) : bool :=
  match o with ObsHandler _ => true | _ => false end.
Definition is_wait (s : hn_sem_t) (o : obs) : bool :=
  match o with ObsWait s' => hn_sem_eqb s s' | _ => false end.
Definition is_post (s : hn_sem_t) (o : obs) : bool :=
  match o with ObsPost s' => hn_sem_eqb s s' | _ => false end.
Definition is_fill (o : obs) : bool :=
  match o with ObsFill => true | _ => false end.

(** What the handler answered, call after call. *)
Fixpoint handler_results (l : list obs) : list VALUE :=
  match l with
  | [] => []
  | ObsHandler v :: l' => v :: handler_results l'
  | _ :: l' => handler_results l'
  end.

(** What was pushed, push after push. *)
Fixpoint pushed_values (l : list obs) : list VALUE :=
  match l with
  | [] => []
  | ObsPush v :: l' => v :: pushed_values l'
  | _ :: l' => pushed_values l'
  end.


(** [performs t s o]: thread [t] is not blocked in [s], and its next step
    completes the operation [o]. *)
Definition performs (t : tid) (s : state) (o : obs) : Prop :=
  trace (step t s) = trace s ++ [(t, o)].

(** ** Program points

    The producer's code, cut at each operation.  [event_producer_body] is
    [at_wait_release]; the others are its continuations. *)

Definition at_post_acquire : prog ctl :=
  Vis GvlAcquire (fun _ => Ret Continue).
Definition at_post : prog ctl :=
  Vis (SemPost event_empty) (fun _ => at_post_acquire).
Definition at_post_release : prog ctl :=
  Vis GvlRelease (fun _ => at_post).
Definition at_push (v : VALUE) : prog ctl :=
  Vis (QueuePush v) (fun _ => at_post_release).
Definition after_handler (ruby_event : VALUE) : prog ctl :=
  if (ruby_event =? Qnil)%Z then Ret Break else at_push ruby_event.
Definition at_handler : prog ctl := Vis CallHandler after_handler.
Definition at_wait_acquire : prog ctl := Vis GvlAcquire (fun _ => at_handler).
Definition at_wait : prog ctl :=
  Vis (SemWait event_full) (fun _ => at_wait_acquire).
Definition at_wait_release : prog ctl := Vis GvlRelease (fun _ => at_wait).

Inductive pc :=
| PWaitRelease            (* line 42, before the GVL is released *)
| PWait                   (* line 42, in hn_sem_wait *)
| PWaitAcquire            (* line 42, taking the GVL back *)
| PHandler                (* line 45 *)
| PBreak                  (* line 48, the handler answered Qnil *)
| PPush (v : VALUE)       (* line 51 *)
| PPostRelease (v : VALUE)(* line 52, before the GVL is released *)
| PPost (v : VALUE)       (* line 52, in hn_sem_post *)
| PPostAcquire (v : VALUE)(* line 52, taking the GVL back *)
| PAgain (v : VALUE)      (* line 53 *)
| PExited.                (* after line 55 *)

Definition code_at (p : pc) : thread :=
  match p with
  | PWaitRelease => Run at_wait_release
  | PWait => Run at_wait
  | PWaitAcquire => Run at_wait_acquire
  | PHandler => Run at_handler
  | PBreak => Run (Ret Break)
  | PPush v => Run (at_push v)
  | PPostRelease _ => Run at_post_release
  | PPost _ => Run at_post
  | PPostAcquire _ => Run at_post_acquire
  | PAgain _ => Run (Ret Continue)
  | PExited => Exited Qtrue
  end.

(** The operations of a turn that forwards [v], and of the last turn. *)
Definition wait_ops : list obs :=
  [ObsGvlRelease; ObsWait event_full; ObsGvlAcquire].
Definition post_ops : list obs :=
  [ObsGvlRelease; ObsPost event_empty; ObsGvlAcquire].
Definition cycle (v : VALUE) : list obs :=
  wait_ops ++ [ObsHandler v; ObsPush v] ++ post_ops.
Definition last_cycle : list obs :=
  wait_ops ++ [ObsHandler Qnil; ObsReturn Qtrue].

(** The operations of the current turn completed when the producer is at
    a given point. *)
Definition partial (p : pc) : list obs :=
  match p with
  | PWaitRelease => []
  | PWait => [ObsGvlRelease]
  | PWaitAcquire => [ObsGvlRelease; ObsWait event_full]
  | PHandler => wait_ops
  | PBreak => wait_ops ++ [ObsHandler Qnil]
  | PPush v => wait_ops ++ [ObsHandler v]
  | PPostRelease v => wait_ops ++ [ObsHandler v; ObsPush v]
  | PPost v => wait_ops ++ [ObsHandler v; ObsPush v; ObsGvlRelease]
  | PPostAcquire v =>
      wait_ops ++ [ObsHandler v; ObsPush v; ObsGvlRelease; ObsPost event_empty]
  | PAgain v => cycle v
  | PExited => last_cycle
  end.

(** The operation the producer performs next at a given point, [w] being
    what the handler would answer. *)
Definition next_obs (p : pc) (w : VALUE) : option obs :=
  match p with
  | PWaitRelease | PPostRelease _ => Some ObsGvlRelease
  | PWait => Some (ObsWait event_full)
  | PWaitAcquire | PPostAcquire _ => Some ObsGvlAcquire
  | PHandler => Some (ObsHandler w)
  | PBreak => Some (ObsReturn Qtrue)
  | PPush v => Some (ObsPush v)
  | PPost _ => Some (ObsPost event_empty)
  | PAgain _ | PExited => None
  end.

(** The value the current turn carries, if it carries one. *)
Definition carried (p : pc) : option VALUE :=
  match p with
  | PPush v | PPostRelease v | PPost v | PPostAcquire v | PAgain v => Some v
  | _ => None
  end.

(** Whether the producer holds the GVL at a given point. *)
Definition holds_gvl (p : pc) : bool :=
  match p with
  | PWait | PWaitAcquire | PPost _ | PPostAcquire _ => false
  | _ => true
  end.

(** The callback side, cut the same way. *)
Inductive cpc :=
| CIdle
| CWait (e : hn_event_t)
| CFill (e : hn_event_t)
| CPost
| CDone.

Definition cb_at_post : prog unit :=
  Vis (SemPost event_full) (fun _ => Ret tt).
Definition cb_at_fill (e : hn_event_t) : prog unit :=
  Vis (FillEvent e) (fun _ => cb_at_post).

Definition cb_code_at (c : cpc) : option (prog unit) :=
  match c with
  | CIdle => None
  | CWait e => Some (libspotify_callback e)
  | CFill e => Some (cb_at_fill e)
  | CPost => Some cb_at_post
  | CDone => Some (Ret tt)
  end.

Definition cb_cycle : list obs :=
  [ObsWait event_empty; ObsFill; ObsPost event_full].

Definition cb_partial (c : cpc) : list obs :=
  match c with
  | CIdle | CWait _ => []
  | CFill _ => [ObsWait event_empty]
  | CPost => [ObsWait event_empty; ObsFill]
  | CDone => cb_cycle
  end.

(** ** The invariant

    [vs] are the values forwarded by the completed turns, [p] is where the
    producer stands in the current one; [n] callback invocations are
    complete and [c] is where the current one stands.  The two equations
    account for the semaphores: what was posted is what was consumed plus
    what is left in the count. *)
Record Inv (q0 : list VALUE) (s : state) (vs : list VALUE) (p : pc)
  (n : nat) (c : cpc) : Prop := {
  inv_nonnil : Forall (fun v => v <> Qnil) vs;
  inv_carried : forall v, carried p = Some v -> v <> Qnil;
  inv_code : producer s = code_at p;
  inv_ptrace : ptrace s = flat_map cycle vs ++ partial p;
  inv_queue :
    event_queue (session_data s) = q0 ++ vs ++ pushed_values (partial p);
  inv_gvl : holds_gvl p = true <-> gvl s = Some Producer;
  inv_cb_code : callback s = cb_code_at c;
  inv_ctrace : ctrace s = concat (repeat cb_cycle n) ++ cb_partial c;
  inv_full :
    sem_count (session_data s) event_full
    + length vs + count (is_wait event_full) (partial p)
    = n + count (is_post event_full) (cb_partial c);
  inv_empty :
    sem_count (session_data s) event_empty
    + n + count (is_wait event_empty) (cb_partial c)
    = 1 + length vs + count (is_post event_empty) (partial p)
}.

(** An event whose handler answers [v] whatever its data. *)
Definition const_event (d : Data) (v : VALUE) : hn_event_t :=
  {| handler := fun _ => v; data := d |}.

(** A schedule that lets the callback side deliver one event and the
    producer take one full turn of the loop. *)
Definition one_turn : list tid :=
  repeat Callback 5 ++ repeat Producer 9.



(** The producer is about to start a turn, nothing is in flight on the
    callback side, and the semaphores are as they were at the start. *)
Definition at_loop_head (s : state) : Prop :=
  producer s = Run event_producer_body /\
  gvl s = Some Producer /\
  callback s = None /\
  sem_count (session_data s) event_full = 0 /\
  sem_count (session_data s) event_empty = 1.

(** What the handlers of a list of events answer. *)
Definition answers (es : list hn_event_t) : list VALUE :=
  map (fun e => handler e (data e)) es.

(** ** The events on their way

    The callback side takes the events from [pending] one by one; an
    invocation that has started holds its event until it has filled the
    slot with it. *)
Definition started (c : cpc) : nat :=
  match c with
  | CIdle => 0
  | _ => 1
  end.

Definition in_hand (c : cpc) : option hn_event_t :=
  match c with
  | CWait e | CFill e => Some e
  | _ => None
  end.

(** The values of a list up to its first [Qnil]. *)
Fixpoint before_nil (l : list VALUE) : list VALUE :=
  match l with
  | [] => []
  | v :: l' => if (v =? Qnil)%Z then [] else v :: before_nil l'
  end.

(** The invariant again, with where the events [es] supplied at the start
    have got to: what is still pending, which event the callback side
    holds, which one sits in the slot, and that the handler's answers so
    far are the answers of the first events, in order. *)
Record Flow (q0 : list VALUE) (es : list hn_event_t) (s : state)
  (vs : list VALUE) (p : pc) (n : nat) (c : cpc) : Prop := {
  flow_inv : Inv q0 s vs p n c;
  flow_pending : pending s = skipn (n + started c) es;
  flow_hand : forall e, in_hand c = Some e -> nth_error es n = Some e;
  flow_slot :
    forall k, n + count is_fill (cb_partial c) = S k ->
              nth_error es k = Some (event (session_data s));
  flow_answers :
    exists rest, answers es = vs ++ handler_results (partial p) ++ rest
}.

(** The fair schedule for a list of events whose handlers answer [l]: as
    many turns as there are values before the first [Qnil], and one more. *)
Definition fair_schedule (l : list VALUE) : list tid :=
  concat (repeat one_turn (S (length (before_nil l)))).

(** * Facts *)

Lemma body_is_at_wait_release : event_producer_body = at_wait_release.
Proof. reflexivity. Qed.

Lemma proj_snoc (t t' : tid) (o : obs) (tr : list (tid * obs)) :
  proj t (tr ++ [(t', o)]) =
  if tid_eqb t' t then proj t tr ++ [o] else proj t tr.
Proof.
  unfold proj. rewrite filter_app, map_app. simpl.
  destruct (tid_eqb t' t); simpl; [reflexivity | apply app_nil_r].
Qed.

Lemma count_app f l1 l2 : count f (l1 ++ l2) = count f l1 + count f l2.
Proof. unfold count. rewrite filter_app, length_app. reflexivity. Qed.

Lemma inv_init q0 e0 es : Inv q0 (init q0 e0 es) [] PWaitRelease 0 CIdle.
Proof.
  constructor; simpl; try reflexivity; auto.
  - discriminate.
  - rewrite app_nil_r. reflexivity.
  - split; reflexivity.
Qed.

Ltac log_goal Hpt Hct :=
  unfold ptrace, ctrace in *; simpl;
  rewrite ?proj_snoc; simpl;
  first [ rewrite Hpt | rewrite Hct | idtac ];
  rewrite ?flat_map_app; simpl;
  rewrite <- ?app_assoc; simpl; rewrite ?app_nil_r;
  reflexivity.

Ltac queue_goal Hq :=
  rewrite Hq; rewrite ?app_nil_r;
  rewrite <- ?app_assoc; simpl; rewrite ?app_nil_r;
  reflexivity.

Ltac inv_field Hpt Hct Hq :=
  simpl;
  first
    [ assumption
    | discriminate
    | reflexivity
    | log_goal Hpt Hct
    | queue_goal Hq
    | (apply Forall_app; split; [assumption | repeat constructor; auto])
    | (split; intro; first [discriminate | reflexivity | congruence])
    | match goal with H : gvl _ = _ |- _ => rewrite H; assumption end
    | (intros ? ?; congruence)
    | lia
    | (unfold count in *; simpl in *; rewrite ?length_app in *; simpl in *; lia)
    | match goal with
      | Hg : _ <-> _ |- _ <-> _ =>
          let Hx := fresh "Hx" in
          split; intro Hx; [apply Hg in Hx; discriminate | discriminate]
      end ].

Lemma inv_step_producer q0 s vs p n c :
  Inv q0 s vs p n c ->
  exists vs' p', Inv q0 (step Producer s) vs' p' n c.
Proof.
  intros [Hnn Hcar Hcode Hpt Hq Hg Hcb Hct Hf He].
  destruct p; simpl in *; unfold step, step_producer; rewrite Hcode; simpl.
  - (* PWaitRelease *)
    destruct Hg as [Hg _]. rewrite (Hg eq_refl). simpl.
    exists vs, PWait. constructor; inv_field Hpt Hct Hq.
  - (* PWait *)
    destruct (sem_count (session_data s) event_full) as [|m] eqn:Hm.
    + exists vs, PWait. constructor; inv_field Hpt Hct Hq.
    + exists vs, PWaitAcquire. constructor; inv_field Hpt Hct Hq.
  - (* PWaitAcquire *)
    destruct (gvl s) as [t|] eqn:Hgvl.
    + exists vs, PWaitAcquire. constructor; inv_field Hpt Hct Hq.
    + exists vs, PHandler. constructor; inv_field Hpt Hct Hq.
  - (* PHandler *)
    unfold after_handler.
    remember (handler (event (session_data s))
                (data (event (session_data s)))) as v eqn:Ev.
    destruct (Z.eqb_spec v Qnil) as [Hv|Hv].
    + rewrite Hv. exists vs, PBreak. constructor; inv_field Hpt Hct Hq.
    + exists vs, (PPush v). constructor; inv_field Hpt Hct Hq.
  - (* PBreak *)
    exists vs, PExited. constructor; inv_field Hpt Hct Hq.
  - (* PPush *)
    exists vs, (PPostRelease v). constructor; inv_field Hpt Hct Hq.
  - (* PPostRelease *)
    destruct Hg as [Hg _]. rewrite (Hg eq_refl). simpl.
    exists vs, (PPost v). constructor; inv_field Hpt Hct Hq.
  - (* PPost *)
    exists vs, (PPostAcquire v). constructor; inv_field Hpt Hct Hq.
  - (* PPostAcquire *)
    destruct (gvl s) as [t|] eqn:Hgvl.
    + exists vs, (PPostAcquire v). constructor; inv_field Hpt Hct Hq.
    + exists vs, (PAgain v). constructor; inv_field Hpt Hct Hq.
  - (* PAgain *)
    exists (vs ++ [v]), PWaitRelease. constructor; inv_field Hpt Hct Hq.
  - (* PExited *)
    exists vs, PExited. constructor; inv_field Hpt Hct Hq.
Qed.

Lemma concat_repeat_snoc (A : Type) (l : list A) (n : nat) :
  concat (repeat l (S n)) = concat (repeat l n) ++ l.
Proof.
  induction n as [|n IH].
  - simpl. rewrite app_nil_r. reflexivity.
  - change (concat (repeat l (S (S n)))) with (l ++ concat (repeat l (S n))).
    rewrite IH at 1. simpl. rewrite app_assoc. reflexivity.
Qed.

Lemma inv_step_callback q0 s vs p n c :
  Inv q0 s vs p n c ->
  exists n' c', Inv q0 (step Callback s) vs p n' c'.
Proof.
  intros [Hnn Hcar Hcode Hpt Hq Hg Hcb Hct Hf He].
  destruct c; simpl in *; unfold step, step_callback; rewrite Hcb; simpl.
  - (* CIdle *)
    destruct (pending s) as [|e es'] eqn:Hp.
    + exists n, CIdle. constructor; inv_field Hpt Hct Hq.
    + exists n, (CWait e). constructor; inv_field Hpt Hct Hq.
  - (* CWait *)
    destruct (sem_count (session_data s) event_empty) as [|m] eqn:Hm.
    + exists n, (CWait e). constructor; inv_field Hpt Hct Hq.
    + exists n, (CFill e). constructor; inv_field Hpt Hct Hq.
  - (* CFill *)
    exists n, CPost. constructor; inv_field Hpt Hct Hq.
  - (* CPost *)
    exists n, CDone. constructor; inv_field Hpt Hct Hq.
  - (* CDone *)
    exists (S n), CIdle. constructor; try solve [inv_field Hpt Hct Hq].
    unfold ctrace in *. simpl trace. rewrite Hct, concat_repeat_snoc.
    simpl. rewrite app_nil_r. reflexivity.
Qed.

Lemma inv_step_consumer q0 s vs p n c :
  Inv q0 s vs p n c -> Inv q0 (step Consumer s) vs p n c.
Proof.
  intros [Hnn Hcar Hcode Hpt Hq Hg Hcb Hct Hf He].
  unfold step, step_consumer.
  destruct (gvl s) as [[| |]|] eqn:Hgvl; constructor; inv_field Hpt Hct Hq.
Qed.

Lemma inv_step q0 t s vs p n c :
  Inv q0 s vs p n c ->
  exists vs' p' n' c', Inv q0 (step t s) vs' p' n' c'.
Proof.
  intros H. destruct t.
  - destruct (inv_step_producer H) as (vs' & p' & H'). eauto.
  - destruct (inv_step_callback H) as (n' & c' & H'). eauto.
  - pose proof (inv_step_consumer H). eauto.
Qed.

Lemma run_snoc sched t (s : state) : run (sched ++ [t]) s = step t (run sched s).
Proof. unfold run. rewrite fold_left_app. reflexivity. Qed.

(** Every state a schedule leads to from the start satisfies the invariant. *)
Lemma inv_run q0 e0 es sched :
  exists vs p n c, Inv q0 (run sched (init q0 e0 es)) vs p n c.
Proof.
  induction sched as [|t sched IH] using rev_ind.
  - exists [], PWaitRelease, 0, CIdle. apply inv_init.
  - destruct IH as (vs & p & n & c & H).
    rewrite run_snoc. eapply inv_step; eauto.
Qed.

(** ** The shape of the producer's log *)

Lemma handler_results_app l1 l2 :
  handler_results (l1 ++ l2) = handler_results l1 ++ handler_results l2.
Proof.
  induction l1 as [|o l1 IH]; simpl; [reflexivity|].
  destruct o; simpl; rewrite IH; reflexivity.
Qed.

Lemma pushed_values_app l1 l2 :
  pushed_values (l1 ++ l2) = pushed_values l1 ++ pushed_values l2.
Proof.
  induction l1 as [|o l1 IH]; simpl; [reflexivity|].
  destruct o; simpl; rewrite IH; reflexivity.
Qed.

Lemma handler_results_cycles vs : handler_results (flat_map cycle vs) = vs.
Proof.
  induction vs as [|v vs IH]; simpl; [reflexivity|]. rewrite IH. reflexivity.
Qed.

Lemma pushed_values_cycles vs : pushed_values (flat_map cycle vs) = vs.
Proof.
  induction vs as [|v vs IH]; simpl; [reflexivity|]. rewrite IH. reflexivity.
Qed.

Lemma count_cycles f k vs :
  (forall v, count f (cycle v) = k) ->
  count f (flat_map cycle vs) = k * length vs.
Proof.
  intros Hk. induction vs as [|v vs IH].
  - unfold count. simpl. lia.
  - change (flat_map cycle (v :: vs)) with (cycle v ++ flat_map cycle vs).
    rewrite count_app, IH, Hk. simpl length. lia.
Qed.

Lemma count_repeat_cb f n :
  count f (concat (repeat cb_cycle n)) = count f cb_cycle * n.
Proof.
  induction n as [|n IH].
  - unfold count. simpl. lia.
  - change (concat (repeat cb_cycle (S n)))
      with (cb_cycle ++ concat (repeat cb_cycle n)).
    rewrite count_app, IH. lia.
Qed.

(** Where an element of a concatenation sits: in the first part, or in the
    second. *)
Lemma app_split_mid (A : Type) (a b l1 l2 : list A) (x : A) :
  a ++ b = l1 ++ x :: l2 ->
  (exists c2, a = l1 ++ x :: c2 /\ l2 = c2 ++ b) \/
  (exists c1, l1 = a ++ c1 /\ b = c1 ++ x :: l2).
Proof.
  revert l1. induction a as [|y a IH]; intros l1 H; simpl in H.
  - right. exists l1. auto.
  - destruct l1 as [|z l1]; simpl in H; injection H as Hy H.
    + left. exists a. subst. auto.
    + subst z. destruct (IH _ H) as [(c2 & Ha & Hl)|(c1 & Hl & Hb)].
      * left. exists c2. subst. auto.
      * right. exists c1. subst. auto.
Qed.

(** Where an operation of the producer's log sits: in one of the complete
    turns, or in the current one. *)
Lemma log_position vs p l1 l2 x :
  flat_map cycle vs ++ partial p = l1 ++ x :: l2 ->
  (exists vs1 v vs2 c1 c2,
      vs = vs1 ++ v :: vs2 /\ cycle v = c1 ++ x :: c2 /\
      l1 = flat_map cycle vs1 ++ c1 /\
      l2 = c2 ++ flat_map cycle vs2 ++ partial p) \/
  (exists c1 c2,
      partial p = c1 ++ x :: c2 /\ l1 = flat_map cycle vs ++ c1 /\ l2 = c2).
Proof.
  revert l1. induction vs as [|v vs IH]; intros l1 H.
  - right. exists l1, l2. auto.
  - cbn [flat_map] in H. rewrite <- app_assoc in H.
    apply app_split_mid in H. destruct H as [(c2 & Hc & Hl)|(c1 & Hl & Hr)].
    + left. exists [], v, vs, l1, c2. auto.
    + destruct (IH _ Hr) as
        [(vs1 & v' & vs2 & d1 & d2 & Hvs & Hcy & Hl1 & Hl2)|(d1 & d2 & Hp & Hl1 & Hl2)].
      * left. exists (v :: vs1), v', vs2, d1, d2. subst.
        repeat split; auto.
      * right. exists d1, d2. subst. repeat split; auto.
Qed.

(** Enumerate the positions at which a literal list can hold an element. *)
Ltac enum H :=
  lazymatch type of H with
  | [] = ?c ++ _ :: _ => exfalso; destruct c; discriminate H
  | _ :: _ = ?c ++ _ :: _ =>
      let y := fresh "y" in
      let c' := fresh "c" in
      let H' := fresh "H" in
      let Hy := fresh "Hy" in
      destruct c as [|y c']; simpl in H;
      [ try discriminate H; injection H; intros; subst
      | injection H as Hy H'; subst y; enum H' ]
  end.


Ltac in_cases H :=
  simpl in H;
  repeat match type of H with
         | _ \/ _ => destruct H as [H|H]
         end;
  try contradiction; try discriminate H.

(** A [Qnil] answer is the last thing but the return. *)
Lemma nil_position vs p l1 l2 :
  Forall (fun v => v <> Qnil) vs ->
  (forall v, carried p = Some v -> v <> Qnil) ->
  flat_map cycle vs ++ partial p = l1 ++ ObsHandler Qnil :: l2 ->
  l1 = flat_map cycle vs ++ wait_ops /\
  ((p = PBreak /\ l2 = []) \/ (p = PExited /\ l2 = [ObsReturn Qtrue])).
Proof.
  intros Hnn Hcar H. apply log_position in H.
  destruct H as [(vs1 & v & vs2 & c1 & c2 & -> & Hc & _)|(c1 & c2 & Hp & -> & ->)].
  - exfalso. apply Forall_app in Hnn. destruct Hnn as [_ Hnn].
    inversion Hnn as [|? ? Hv _]; subst. apply Hv.
    unfold cycle, wait_ops, post_ops in Hc. simpl in Hc. enum Hc. reflexivity.
  - destruct p; unfold partial, cycle, last_cycle, wait_ops, post_ops in Hp;
      simpl in Hp, Hcar; enum Hp;
      try (exfalso; eapply Hcar; reflexivity).
    all: split; [reflexivity | auto].
Qed.

Ltac unfold_turns H :=
  unfold partial, cycle, last_cycle, wait_ops, post_ops in H; simpl in H.

(** A push comes right after the handler call that gave the value, and
    the value is not [Qnil]. *)
Lemma push_position vs p l1 l2 v :
  Forall (fun v => v <> Qnil) vs ->
  (forall v, carried p = Some v -> v <> Qnil) ->
  flat_map cycle vs ++ partial p = l1 ++ ObsPush v :: l2 ->
  v <> Qnil /\ exists l0, l1 = l0 ++ wait_ops ++ [ObsHandler v].
Proof.
  intros Hnn Hcar H. apply log_position in H.
  destruct H as [(vs1 & w & vs2 & c1 & c2 & -> & Hc & -> & _)|(c1 & c2 & Hp & -> & _)].
  - apply Forall_app in Hnn. destruct Hnn as [_ Hnn].
    inversion Hnn as [|? ? Hw _]; subst.
    unfold_turns Hc. enum Hc. split; [exact Hw|].
    exists (flat_map cycle vs1). reflexivity.
  - destruct p; unfold_turns Hp; simpl in Hcar; enum Hp;
      (split; [apply Hcar; reflexivity | exists (flat_map cycle vs); reflexivity]).
Qed.



(** A handler call comes right after a completed wait on [event_full],
    and before that wait the producer had completed whole turns only. *)
Lemma handler_position vs p l1 l2 v :
  flat_map cycle vs ++ partial p = l1 ++ ObsHandler v :: l2 ->
  exists ws, l1 = flat_map cycle ws ++ wait_ops.
Proof.
  intros H. apply log_position in H.
  destruct H as [(vs1 & w & vs2 & c1 & c2 & -> & Hc & -> & _)|(c1 & c2 & Hp & -> & _)].
  - unfold_turns Hc. enum Hc. exists vs1. reflexivity.
  - destruct p; unfold_turns Hp; enum Hp; exists vs; reflexivity.
Qed.

(** ** Single steps *)

Lemma snoc_neq (A : Type) (l : list A) (x : A) : l <> l ++ [x].
Proof.
  intros H. apply (f_equal (@length A)) in H.
  rewrite length_app in H. simpl in H. lia.
Qed.

Lemma snoc_inj (A : Type) (l : list A) (x y : A) : l ++ [x] = l ++ [y] -> x = y.
Proof. intros H. apply app_inv_head in H. congruence. Qed.

(** A step logs at most one operation, under the name of the thread that
    moved. *)
Lemma step_trace t (s : state) :
  trace (step t s) = trace s \/ exists o, trace (step t s) = trace s ++ [(t, o)].
Proof.
  destruct t; unfold step.
  - unfold step_producer. destruct (producer s) as [[[|]|X e k]|v]; simpl; eauto.
    destruct (perform Producer e (session_data s) (gvl s)) as [[[x sd] g]|];
      simpl; eauto.
  - unfold step_callback. destruct (callback s) as [[u|X e k]|]; simpl; eauto.
    + destruct (perform Callback e (session_data s) (gvl s)) as [[[x sd] g]|];
        simpl; eauto.
    + destruct (pending s); simpl; eauto.
  - unfold step_consumer. destruct (gvl s) as [[| |]|]; simpl; eauto.
Qed.

(** Every prefix of a log is itself the log of a run, and the entry that
    follows the prefix is what the next step of that run performs. *)
Lemma trace_prefix q0 e0 es sched g1 g2 t o :
  trace (run sched (init q0 e0 es)) = g1 ++ (t, o) :: g2 ->
  exists sched',
    trace (run sched' (init q0 e0 es)) = g1 /\
    performs t (run sched' (init q0 e0 es)) o.
Proof.
  revert g2. induction sched as [|t' sched IH] using rev_ind; intros g2 H.
  - simpl in H. destruct g1; discriminate H.
  - rewrite run_snoc in H.
    destruct (step_trace t' (run sched (init q0 e0 es))) as [E|(o' & E)];
      rewrite E in H.
    + eapply IH; eauto.
    + destruct g2 as [|y g2] using rev_ind.
      * apply app_inj_tail in H. destruct H as [Hg Hx]. injection Hx as -> ->.
        exists sched. split; [exact Hg|]. unfold performs. rewrite E, Hg.
        reflexivity.
      * clear IHg2. rewrite app_comm_cons, app_assoc in H.
        apply app_inj_tail in H. destruct H as [Hg _]. eapply IH; eauto.
Qed.

(** What the producer's next step performs, point by point. *)
Lemma producer_performs q0 s vs p n c o :
  Inv q0 s vs p n c ->
  performs Producer s o ->
  next_obs p (handler (event (session_data s)) (data (event (session_data s))))
  = Some o /\
  (p = PWait -> sem_count (session_data s) event_full <> 0).
Proof.
  intros I H. unfold performs, step, step_producer in H.
  rewrite (inv_code I) in H.
  destruct p; simpl in H;
    try destruct (sem_count (session_data s) event_full) eqn:Hm;
    try destruct (gvl s) as [[| |]|] eqn:Hgvl;
    simpl in H;
    try (exfalso; eapply snoc_neq; exact H);
    try (apply snoc_inj in H; injection H as <-);
    split; try reflexivity; try discriminate; auto.
Qed.

(** What the callback side's next step performs. *)
Lemma callback_performs q0 s vs p n c o :
  Inv q0 s vs p n c ->
  performs Callback s o ->
  match c with
  | CWait _ =>
      o = ObsWait event_empty /\ sem_count (session_data s) event_empty <> 0
  | CFill _ => o = ObsFill
  | CPost => o = ObsPost event_full
  | CIdle | CDone => False
  end.
Proof.
  intros I H. unfold performs, step, step_callback in H.
  rewrite (inv_cb_code I) in H.
  destruct c; simpl in H;
    try destruct (pending s) eqn:Hp;
    try destruct (sem_count (session_data s) event_empty) eqn:Hm;
    simpl in H;
    try (exfalso; eapply snoc_neq; exact H);
    try (apply snoc_inj in H; injection H as <-);
    eauto.
Qed.

Lemma performs_push q0 s vs p n c v :
  Inv q0 s vs p n c -> performs Producer s (ObsPush v) -> p = PPush v.
Proof.
  intros I H. destruct (producer_performs I H) as [Hp _].
  destruct p; simpl in Hp; try discriminate Hp.
  injection Hp as <-. reflexivity.
Qed.

Lemma performs_wait q0 s vs p n c sem :
  Inv q0 s vs p n c -> performs Producer s (ObsWait sem) ->
  p = PWait /\ sem = event_full /\ sem_count (session_data s) event_full <> 0.
Proof.
  intros I H. destruct (producer_performs I H) as [Hp Hm].
  destruct p; simpl in Hp; try discriminate Hp.
  injection Hp as <-. auto.
Qed.


(** ** Counting in the logs *)

Lemma count_ptrace q0 s vs p n c f k :
  Inv q0 s vs p n c ->
  (forall v, count f (cycle v) = k) ->
  count f (ptrace s) = k * length vs + count f (partial p).
Proof.
  intros I Hk. rewrite (inv_ptrace I), count_app, (count_cycles _ _ Hk).
  reflexivity.
Qed.

Lemma count_ctrace q0 s vs p n c f :
  Inv q0 s vs p n c ->
  count f (ctrace s) = count f cb_cycle * n + count f (cb_partial c).
Proof.
  intros I. rewrite (inv_ctrace I), count_app, count_repeat_cb. reflexivity.
Qed.

(** ** A fair schedule

    [one_turn] delivers one event and takes the producer once around the
    loop; repeated, it forwards every value up to the first [Qnil]. *)

Lemma run_app sched1 sched2 (s : state) :
  run (sched1 ++ sched2) s = run sched2 (run sched1 s).
Proof. unfold run. apply fold_left_app. Qed.

Lemma one_turn_forwards s e es v :
  at_loop_head s -> pending s = e :: es ->
  handler e (data e) = v -> v <> Qnil ->
  at_loop_head (run one_turn s) /\
  pending (run one_turn s) = es /\
  event_queue (session_data (run one_turn s))
  = event_queue (session_data s) ++ [v] /\
  ptrace (run one_turn s) = ptrace s ++ cycle v /\
  ctrace (run one_turn s) = ctrace s ++ cb_cycle.
Proof.
  intros (Hp & Hg & Hc & Hf & He) Hpend Hv Hnn.
  destruct s as [[sc ev q] g pr cb pend tr]. simpl in *. subst.
  apply Z.eqb_neq in Hnn.
  unfold run, one_turn, at_loop_head, ptrace, ctrace.
  repeat (cbn -[Z.eqb]; rewrite ?Hf, ?He, ?Hnn).
  repeat split;
    rewrite !filter_app, !map_app; simpl; rewrite <- !app_assoc, ?app_nil_r;
    reflexivity.
Qed.

Lemma one_turn_returns s e es :
  at_loop_head s -> pending s = e :: es ->
  handler e (data e) = Qnil ->
  producer (run one_turn s) = Exited Qtrue /\
  event_queue (session_data (run one_turn s)) = event_queue (session_data s) /\
  ptrace (run one_turn s) = ptrace s ++ last_cycle /\
  ctrace (run one_turn s) = ctrace s ++ cb_cycle.
Proof.
  intros (Hp & Hg & Hc & Hf & He) Hpend Hv.
  destruct s as [[sc ev q] g pr cb pend tr]. simpl in *. subst.
  pose proof Hv as Hv'. apply Z.eqb_eq in Hv'.
  unfold run, one_turn, ptrace, ctrace.
  repeat (cbn -[Z.eqb]; rewrite ?Hf, ?He, ?Hv').
  repeat split;
    rewrite !filter_app, !map_app; simpl;
    rewrite <- !app_assoc, ?app_nil_r, ?Hv; reflexivity.
Qed.

(** Whatever the events, if their handlers answer the non-nil values [vs]
    and then [Qnil], the fair schedule makes the producer forward [vs] and
    return. *)
Lemma fair_run_returns s es vs rest :
  at_loop_head s -> pending s = es ++ rest ->
  answers es = vs ++ [Qnil] ->
  Forall (fun v => v <> Qnil) vs ->
  let s' := run (concat (repeat one_turn (length es))) s in
  producer s' = Exited Qtrue /\
  event_queue (session_data s') = event_queue (session_data s) ++ vs /\
  ptrace s' = ptrace s ++ flat_map cycle vs ++ last_cycle /\
  ctrace s' = ctrace s ++ concat (repeat cb_cycle (length es)).
Proof.
  revert s vs. induction es as [|e es IH]; intros s vs Hhead Hpend Hans Hvs.
  - destruct vs; discriminate Hans.
  - cbn [app] in Hpend. cbn zeta.
    replace (concat (repeat one_turn (length (e :: es))))
      with (one_turn ++ concat (repeat one_turn (length es)))
      by reflexivity.
    rewrite run_app. destruct vs as [|v vs]; cbn [answers map app] in Hans.
    + injection Hans as Hv Hes. destruct es; [|discriminate Hes].
      destruct (one_turn_returns Hhead Hpend Hv) as (H1 & H2 & H3 & H4).
      revert H1 H2 H3 H4. generalize (run one_turn s). intros s1 H1 H2 H3 H4.
      cbn [length repeat concat]. change (run [] s1) with s1.
      rewrite H1, H2, H3, H4, !app_nil_r. auto.
    + injection Hans as Hv Hes. inversion Hvs as [|? ? Hnn Hvs']; subst.
      destruct (one_turn_forwards Hhead Hpend eq_refl Hnn)
        as (Hhead' & Hpend' & Hq & Ht & Hc).
      revert Hhead' Hpend' Hq Ht Hc. generalize (run one_turn s).
      intros s1 Hhead' Hpend' Hq Ht Hc.
      destruct (IH _ _ Hhead' Hpend' Hes Hvs') as (H1 & H2 & H3 & H4).
      rewrite H1, H2, H3, H4, Hq, Ht, Hc. repeat split.
      * rewrite <- app_assoc. reflexivity.
      * cbn [flat_map]. rewrite <- !app_assoc. reflexivity.
      * cbn [length repeat concat]. rewrite <- !app_assoc. reflexivity.
Qed.

(** ** Properties of the producer loop *)


(** C7.  If the producer thread has returned, it returned [Qtrue], and the
    last two things it did were to get [Qnil] from the handler and to
    return: the loop is left through the [break] of line 48 and in no
    other way. *)
Theorem producer_returns_only_after_nil q0 e0 es sched v :
  let s := run sched (init q0 e0 es) in
  producer s = Exited v ->
  v = Qtrue /\
  exists l, ptrace s = l ++ [ObsHandler Qnil; ObsReturn Qtrue] /\
            ~ In (ObsReturn Qtrue) l.
Proof.
  intros s Hex. subst s.
  destruct (inv_run q0 e0 es sched) as (vs & p & n & c & I).
  rewrite (inv_code I) in Hex. rewrite (inv_ptrace I).
  destruct p; simpl in Hex; try discriminate Hex.
  injection Hex as <-. split; [reflexivity|].
  exists (flat_map cycle vs ++ wait_ops). split.
  - simpl. rewrite <- app_assoc. reflexivity.
  - intros H. apply in_app_or in H. destruct H as [H|H].
    + apply in_flat_map in H. destruct H as (w & _ & H). in_cases H.
    + in_cases H.
Qed.

(** When the answers are non-nil values followed by [Qnil], the completed
    turns are those of the values and the producer is leaving the loop. *)
Lemma results_end_with_nil q0 s ws p n c vs :
  Inv q0 s ws p n c ->
  handler_results (ptrace s) = vs ++ [Qnil] ->
  Forall (fun v => v <> Qnil) vs ->
  ws = vs /\ (p = PBreak \/ p = PExited).
Proof.
  intros I Hres Hvs.
  rewrite (inv_ptrace I), handler_results_app, handler_results_cycles in Hres.
  pose proof (inv_nonnil I) as Hws. pose proof (inv_carried I) as Hcar.
  destruct p; simpl in Hres, Hcar;
    try (rewrite app_nil_r in Hres; subst ws;
         apply Forall_app in Hws; destruct Hws as [_ Hws];
         inversion Hws; congruence);
    try (apply app_inj_tail in Hres; destruct Hres as [-> Hv];
         first [ split; [reflexivity | auto; fail]
               | exfalso; revert Hv; apply Hcar; reflexivity ]).
Qed.

(** C1.  If the handler has answered the non-nil values [vs] and then
    [Qnil], the queue holds what it held at the start followed by exactly
    [vs], in the order the handler gave them; so a queue that started
    empty holds exactly these [length vs] values. *)
Theorem sink_holds_results_in_order q0 e0 es sched vs :
  let s := run sched (init q0 e0 es) in
  handler_results (ptrace s) = vs ++ [Qnil] ->
  Forall (fun v => v <> Qnil) vs ->
  event_queue (session_data s) = q0 ++ vs /\
  pushed_values (ptrace s) = vs /\
  length (event_queue (session_data s)) = length q0 + length vs.
Proof.
  intros s Hres Hvs. subst s.
  destruct (inv_run q0 e0 es sched) as (ws & p & n & c & I).
  destruct (results_end_with_nil I Hres Hvs) as [-> Hp].
  rewrite (inv_queue I), (inv_ptrace I), pushed_values_app,
    pushed_values_cycles.
  assert (Hnone : pushed_values (partial p) = [])
    by (destruct Hp as [-> | ->]; reflexivity).
  rewrite Hnone, !app_nil_r.
  repeat split; try reflexivity. apply length_app.
Qed.

(** C8.  [Qnil] is never pushed: no push of [Qnil] is in the producer's
    log, the queue is what it was at the start followed by the values
    pushed, none of which is [Qnil]; every push comes right after the
    handler call that gave its value, the test of line 48 having let it
    through; and nothing is pushed after a [Qnil] answer. *)
Theorem nil_never_pushed q0 e0 es sched :
  let s := run sched (init q0 e0 es) in
  ~ In (ObsPush Qnil) (ptrace s) /\
  event_queue (session_data s) = q0 ++ pushed_values (ptrace s) /\
  ~ In Qnil (pushed_values (ptrace s)) /\
  (forall l1 v l2, ptrace s = l1 ++ ObsPush v :: l2 ->
     v <> Qnil /\ exists l0, l1 = l0 ++ [ObsHandler v]) /\
  (forall l1 l2, ptrace s = l1 ++ ObsHandler Qnil :: l2 ->
     pushed_values l2 = []).
Proof.
  intros s. subst s.
  destruct (inv_run q0 e0 es sched) as (vs & p & n & c & I).
  pose proof (inv_nonnil I) as Hnn. pose proof (inv_carried I) as Hcar.
  assert (Hpos : forall l1 v l2,
             ptrace (run sched (init q0 e0 es)) = l1 ++ ObsPush v :: l2 ->
             v <> Qnil /\ exists l0, l1 = l0 ++ [ObsHandler v]).
  { intros l1 v l2 H. rewrite (inv_ptrace I) in H.
    apply push_position in H; [|assumption|assumption].
    destruct H as (Hv & l0 & ->).
    split; [exact Hv|]. exists (l0 ++ wait_ops). rewrite <- app_assoc.
    reflexivity. }
  repeat split.
  - intros H. apply in_split in H. destruct H as (l1 & l2 & H).
    apply Hpos in H. destruct H as [H _]. apply H. reflexivity.
  - rewrite (inv_queue I), (inv_ptrace I), pushed_values_app,
      pushed_values_cycles. reflexivity.
  - rewrite (inv_ptrace I), pushed_values_app, pushed_values_cycles.
    intros H. apply in_app_or in H. destruct H as [H|H].
    + rewrite Forall_forall in Hnn. exact (Hnn _ H eq_refl).
    + destruct p; simpl in H, Hcar; try contradiction;
        destruct H as [H|[]]; exact (Hcar _ (f_equal Some H) eq_refl).
  - apply (Hpos _ _ _ H).
  - apply (Hpos _ _ _ H).
  - intros l1 l2 H. rewrite (inv_ptrace I) in H.
    apply nil_position in H; [|assumption|assumption].
    destruct H as (_ & [(_ & ->)|(_ & ->)]); reflexivity.
Qed.

(** C9.  What is pushed is what the handler answered: every push in the
    producer's log carries the value of the handler call right before it;
    when the producer performs a push of [v], the last thing it did was to
    get [v] from the handler, and the step appends [v] itself to the
    queue; so the values pushed are the handler's answers in order, the
    last answer at most missing. *)
Theorem pushed_value_is_handler_result q0 e0 es sched :
  let s := run sched (init q0 e0 es) in
  (forall l1 v l2, ptrace s = l1 ++ ObsPush v :: l2 ->
     exists l0, l1 = l0 ++ [ObsHandler v]) /\
  (forall v, performs Producer s (ObsPush v) ->
     (exists l0, ptrace s = l0 ++ [ObsHandler v]) /\
     event_queue (session_data (step Producer s))
     = event_queue (session_data s) ++ [v]) /\
  event_queue (session_data s) = q0 ++ pushed_values (ptrace s) /\
  exists rest,
    handler_results (ptrace s) = pushed_values (ptrace s) ++ rest /\
    length rest <= 1.
Proof.
  intros s. subst s.
  destruct (inv_run q0 e0 es sched) as (vs & p & n & c & I).
  pose proof (inv_nonnil I) as Hnn. pose proof (inv_carried I) as Hcar.
  repeat split.
  - intros l1 v l2 H. rewrite (inv_ptrace I) in H.
    apply push_position in H; [|assumption|assumption].
    destruct H as (_ & l0 & ->). exists (l0 ++ wait_ops).
    rewrite <- app_assoc. reflexivity.
  - rewrite (performs_push I H) in I. rewrite (inv_ptrace I).
    exists (flat_map cycle vs ++ wait_ops). rewrite <- app_assoc. reflexivity.
  - rewrite (performs_push I H) in I. unfold step, step_producer.
    rewrite (inv_code I). reflexivity.
  - rewrite (inv_queue I), (inv_ptrace I), pushed_values_app,
      pushed_values_cycles. reflexivity.
  - rewrite (inv_ptrace I), handler_results_app, handler_results_cycles,
      pushed_values_app, pushed_values_cycles.
    destruct p; eexists;
      (split; [rewrite <- app_assoc; f_equal; simpl; reflexivity | simpl; lia]).
Qed.

(** C3.  Once the handler has answered [Qnil], nothing follows in the
    producer's log but the return: no wait, no push, no post of
    [event_empty]; the producer's next step, if it has not returned yet,
    is the return, and it cannot block.  If that answer was the first one,
    the queue is as it was at the start and [event_empty] was never
    posted. *)
Theorem nil_ends_the_loop q0 e0 es sched l1 l2 :
  let s := run sched (init q0 e0 es) in
  ptrace s = l1 ++ ObsHandler Qnil :: l2 ->
  (l2 = [] \/ l2 = [ObsReturn Qtrue]) /\
  count (is_post event_empty) l2 = 0 /\
  producer (step Producer s) = Exited Qtrue /\
  (handler_results l1 = [] ->
     event_queue (session_data s) = q0 /\
     pushed_values (ptrace s) = [] /\
     count (is_post event_empty) (ptrace s) = 0).
Proof.
  intros s H. subst s.
  destruct (inv_run q0 e0 es sched) as (vs & p & n & c & I).
  pose proof (inv_nonnil I) as Hnn. pose proof (inv_carried I) as Hcar.
  pose proof H as H'. rewrite (inv_ptrace I) in H'.
  apply nil_position in H'; [|assumption|assumption].
  destruct H' as (Hl1 & Hp).
  assert (Hstep : producer (step Producer (run sched (init q0 e0 es)))
                  = Exited Qtrue).
  { unfold step, step_producer. rewrite (inv_code I).
    destruct Hp as [(-> & _)|(-> & _)]; simpl;
      [reflexivity | exact (inv_code I)]. }
  split; [destruct Hp as [(_ & ->)|(_ & ->)]; auto|].
  split; [destruct Hp as [(_ & ->)|(_ & ->)]; reflexivity|].
  split; [exact Hstep|].
  intros Hfirst.
  rewrite Hl1, handler_results_app, handler_results_cycles in Hfirst.
  apply app_eq_nil in Hfirst. destruct Hfirst as [-> _].
  rewrite (inv_queue I), (inv_ptrace I).
  destruct Hp as [(-> & _)|(-> & _)]; simpl; rewrite app_nil_r; auto.
Qed.

(** C5.  Every handler call in the producer's log comes right after a
    release of the GVL, a completed wait on [event_full] and the taking
    back of the GVL, and before these the producer had completed as many
    waits as handler calls: one wait for each call.  When the producer
    completes a wait, the callback side has already posted [event_full]
    more often than the producer had waited before.  The posts are the
    waits completed plus the count left in the semaphore, so the handler
    is never called more often than [event_full] was posted. *)
Theorem dispatches_bounded_by_posts q0 e0 es sched :
  let s := run sched (init q0 e0 es) in
  (forall l1 v l2, ptrace s = l1 ++ ObsHandler v :: l2 ->
     exists l0, l1 = l0 ++ wait_ops /\
                count (is_wait event_full) l0 = count is_handler l0) /\
  (forall g1 g2, trace s = g1 ++ (Producer, ObsWait event_full) :: g2 ->
     count (is_wait event_full) (proj Producer g1)
     < count (is_post event_full) (proj Callback g1)) /\
  sem_count (session_data s) event_full
  + count (is_wait event_full) (ptrace s)
  = count (is_post event_full) (ctrace s) /\
  count is_handler (ptrace s) <= count (is_wait event_full) (ptrace s) /\
  count is_handler (ptrace s) <= count (is_post event_full) (ctrace s).
Proof.
  intros s. subst s.
  destruct (inv_run q0 e0 es sched) as (vs & p & n & c & I).
  assert (Hw : forall v, count (is_wait event_full) (cycle v) = 1)
    by reflexivity.
  assert (Hh : forall v, count is_handler (cycle v) = 1) by reflexivity.
  assert (Hacc : sem_count (session_data (run sched (init q0 e0 es))) event_full
                 + count (is_wait event_full) (ptrace (run sched (init q0 e0 es)))
                 = count (is_post event_full) (ctrace (run sched (init q0 e0 es)))).
  { rewrite (count_ptrace _ I Hw), (count_ctrace _ I).
    pose proof (inv_full I) as Hf. change (count (is_post event_full) cb_cycle) with 1.
    lia. }
  assert (Hle : count is_handler (ptrace (run sched (init q0 e0 es)))
                <= count (is_wait event_full) (ptrace (run sched (init q0 e0 es)))).
  { rewrite (count_ptrace _ I Hw), (count_ptrace _ I Hh).
    apply Nat.add_le_mono_l. destruct p; unfold count; simpl; lia. }
  split; [|split; [|split; [exact Hacc|split; [exact Hle|lia]]]].
  - intros l1 v l2 H. rewrite (inv_ptrace I) in H.
    apply handler_position in H. destruct H as (ws & ->).
    exists (flat_map cycle ws). split; [reflexivity|].
    rewrite (count_cycles _ _ Hw), (count_cycles _ _ Hh). reflexivity.
  - intros g1 g2 H. apply trace_prefix in H.
    destruct H as (sched' & Hg & Hperf).
    destruct (inv_run q0 e0 es sched') as (vs' & p' & n' & c' & I').
    destruct (performs_wait I' Hperf) as (-> & _ & Hm).
    pose proof (count_ptrace _ I' Hw) as E1.
    pose proof (count_ctrace (is_post event_full) I') as E2.
    pose proof (inv_full I') as Hf.
    unfold ptrace, ctrace in E1, E2. rewrite Hg in E1, E2. rewrite E1, E2.
    change (count (is_post event_full) cb_cycle) with 1.
    unfold count in Hf |- *. simpl in Hf |- *. lia.
Qed.







(** C6.  Start with [event_full] at 0 and [event_empty] at 1, and let
    the handlers of three events answer [A], [B] and [Qnil], [A] and [B]
    not being [Qnil].  Under the schedule that alternates the callback
    side and the producer, [event_full] is posted three times, the handler
    is called three times, the queue ends as its initial content followed
    by [A; B] and the producer has returned [Qtrue].  Under any schedule
    at all, once [event_full] was posted three times and the handler
    answered [A], [B], [Qnil], the queue is the initial content followed
    by [A; B], there were three handler calls, every post was consumed,
    and the producer has returned or returns at its next step. *)
Theorem three_posts_two_values q0 e0 eA eB eT :
  let A := handler eA (data eA) in
  let B := handler eB (data eB) in
  A <> Qnil -> B <> Qnil -> handler eT (data eT) = Qnil ->
  (sem_count (session_data (init q0 e0 [eA; eB; eT])) event_full = 0 /\
   sem_count (session_data (init q0 e0 [eA; eB; eT])) event_empty = 1) /\
  (let s := run (one_turn ++ one_turn ++ one_turn) (init q0 e0 [eA; eB; eT]) in
   count (is_post event_full) (ctrace s) = 3 /\
   handler_results (ptrace s) = [A; B; Qnil] /\
   event_queue (session_data s) = q0 ++ [A; B] /\
   producer s = Exited Qtrue) /\
  (forall es sched,
     let s := run sched (init q0 e0 es) in
     count (is_post event_full) (ctrace s) = 3 ->
     handler_results (ptrace s) = [A; B; Qnil] ->
     event_queue (session_data s) = q0 ++ [A; B] /\
     count is_handler (ptrace s) = 3 /\
     sem_count (session_data s) event_full = 0 /\
     producer (step Producer s) = Exited Qtrue).
Proof.
  intros A B HA HB HT.
  split; [split; reflexivity|]. split.
  - replace (one_turn ++ one_turn ++ one_turn)
      with (concat (repeat one_turn (length [eA; eB; eT]))) by reflexivity.
    assert (Hhead : at_loop_head (init q0 e0 [eA; eB; eT]))
      by (repeat split).
    assert (Hans : answers [eA; eB; eT] = [A; B] ++ [Qnil])
      by (simpl; rewrite HT; reflexivity).
    assert (Hvs : Forall (fun v => v <> Qnil) [A; B])
      by (repeat constructor; assumption).
    destruct (@fair_run_returns (init q0 e0 [eA; eB; eT]) [eA; eB; eT]
                [A; B] [] Hhead eq_refl Hans Hvs)
      as (H1 & H2 & H3 & H4).
    cbv zeta in H1, H2, H3, H4 |- *.
    rewrite H1, H2, H3, H4.
    repeat split.
  - intros es sched s Hposts Hres. subst s.
    destruct (inv_run q0 e0 es sched) as (ws & p & n & c & I).
    assert (Hvs : Forall (fun v => v <> Qnil) [A; B])
      by (repeat constructor; assumption).
    destruct (results_end_with_nil I (vs := [A; B]) Hres Hvs) as [-> Hp].
    assert (Hw : forall v, count (is_wait event_full) (cycle v) = 1)
      by reflexivity.
    assert (Hh : forall v, count is_handler (cycle v) = 1) by reflexivity.
    pose proof (inv_full I) as Hf.
    rewrite (count_ctrace _ I) in Hposts.
    change (count (is_post event_full) cb_cycle) with 1 in Hposts.
    rewrite (inv_queue I), (count_ptrace _ I Hh).
    unfold step, step_producer. rewrite (inv_code I).
    destruct Hp as [-> | ->]; simpl in Hf |- *; repeat split;
      first [ exact (inv_code I) | unfold count in *; simpl in *; lia ].
Qed.

(** ** Where the events go *)

Lemma skipn_head (A : Type) (l : list A) (k : nat) (x : A) (rest : list A) :
  skipn k l = x :: rest -> nth_error l k = Some x /\ skipn (S k) l = rest.
Proof.
  revert l. induction k as [|k IH]; intros l H.
  - simpl in H. subst l. split; reflexivity.
  - destruct l as [|y l]; [discriminate H|]. simpl in H.
    destruct (IH _ H) as [H1 H2]. split; [exact H1 | exact H2].
Qed.

Lemma answers_next es vs rest e :
  answers es = vs ++ rest -> nth_error es (length vs) = Some e ->
  exists rest', rest = handler e (data e) :: rest'.
Proof.
  intros Ha He.
  apply (map_nth_error (fun e => handler e (data e))) in He.
  fold (answers es) in He. rewrite Ha, nth_error_app2, Nat.sub_diag in He by lia.
  destruct rest as [|v rest]; simpl in He; [discriminate He|].
  injection He as ->. eauto.
Qed.

Lemma flow_init q0 e0 es :
  Flow q0 es (init q0 e0 es) [] PWaitRelease 0 CIdle.
Proof.
  constructor; simpl.
  - apply inv_init.
  - reflexivity.
  - discriminate.
  - intros k H. unfold count in H. simpl in H. discriminate H.
  - exists (answers es). reflexivity.
Qed.

(** When the producer is about to call the handler, the slot holds the
    event that comes after those already dispatched. *)
Lemma slot_at_handler q0 es s vs n c :
  Flow q0 es s vs PHandler n c ->
  nth_error es (length vs) = Some (event (session_data s)).
Proof.
  intros F. apply (flow_slot F).
  pose proof (inv_full (flow_inv F)) as Hf.
  pose proof (inv_empty (flow_inv F)) as He.
  destruct c; unfold count in *; simpl in *; lia.
Qed.

Ltac flow_fields Hpt Hct Hq :=
  constructor;
  [ constructor; inv_field Hpt Hct Hq
  | simpl; try assumption ..].

Lemma flow_step_producer q0 es s vs p n c :
  Flow q0 es s vs p n c ->
  exists vs' p', Flow q0 es (step Producer s) vs' p' n c.
Proof.
  intros F. pose proof F as [I Hpend Hhand Hslot Hans].
  destruct I as [Hnn Hcar Hcode Hpt Hq Hg Hcb Hct Hf He].
  destruct p; simpl in *; unfold step, step_producer; rewrite Hcode; simpl.
  - (* PWaitRelease *)
    destruct Hg as [Hg _]. rewrite (Hg eq_refl). simpl.
    exists vs, PWait. flow_fields Hpt Hct Hq.
  - (* PWait *)
    destruct (sem_count (session_data s) event_full) as [|m] eqn:Hm.
    + exists vs, PWait. flow_fields Hpt Hct Hq.
    + exists vs, PWaitAcquire. flow_fields Hpt Hct Hq.
  - (* PWaitAcquire *)
    destruct (gvl s) as [t|] eqn:Hgvl.
    + exists vs, PWaitAcquire. flow_fields Hpt Hct Hq.
    + exists vs, PHandler. flow_fields Hpt Hct Hq.
  - (* PHandler *)
    pose proof (slot_at_handler F) as Hev.
    destruct Hans as (rest & Hans).
    destruct (@answers_next _ _ _ _ Hans Hev) as (rest' & ->).
    unfold after_handler.
    remember (handler (event (session_data s))
                (data (event (session_data s)))) as v eqn:Ev.
    destruct (Z.eqb_spec v Qnil) as [Hv|Hv].
    + rewrite Hv in *. exists vs, PBreak. flow_fields Hpt Hct Hq.
      exists rest'. exact Hans.
    + exists vs, (PPush v). flow_fields Hpt Hct Hq.
      exists rest'. exact Hans.
  - (* PBreak *)
    exists vs, PExited. flow_fields Hpt Hct Hq.
  - (* PPush *)
    exists vs, (PPostRelease v). flow_fields Hpt Hct Hq.
  - (* PPostRelease *)
    destruct Hg as [Hg _]. rewrite (Hg eq_refl). simpl.
    exists vs, (PPost v). flow_fields Hpt Hct Hq.
  - (* PPost *)
    exists vs, (PPostAcquire v). flow_fields Hpt Hct Hq.
  - (* PPostAcquire *)
    destruct (gvl s) as [t|] eqn:Hgvl.
    + exists vs, (PPostAcquire v). flow_fields Hpt Hct Hq.
    + exists vs, (PAgain v). flow_fields Hpt Hct Hq.
  - (* PAgain *)
    exists (vs ++ [v]), PWaitRelease. flow_fields Hpt Hct Hq.
    destruct Hans as (rest & Hans). exists rest.
    rewrite Hans, <- app_assoc. reflexivity.
  - (* PExited *)
    exists vs, PExited. flow_fields Hpt Hct Hq.
Qed.

Lemma flow_step_callback q0 es s vs p n c :
  Flow q0 es s vs p n c ->
  exists n' c', Flow q0 es (step Callback s) vs p n' c'.
Proof.
  intros [I Hpend Hhand Hslot Hans].
  destruct I as [Hnn Hcar Hcode Hpt Hq Hg Hcb Hct Hf He].
  destruct c; simpl in *; unfold step, step_callback; rewrite Hcb; simpl.
  - (* CIdle *)
    destruct (pending s) as [|e es'] eqn:Hp.
    + exists n, CIdle. flow_fields Hpt Hct Hq. rewrite Hp. exact Hpend.
    + symmetry in Hpend. rewrite Nat.add_0_r in Hpend.
      apply skipn_head in Hpend. destruct Hpend as [Hn Hrest].
      exists n, (CWait e). flow_fields Hpt Hct Hq.
      * rewrite Nat.add_1_r. symmetry. exact Hrest.
      * intros e' He'. injection He' as <-. exact Hn.
  - (* CWait *)
    destruct (sem_count (session_data s) event_empty) as [|m] eqn:Hm.
    + exists n, (CWait e). flow_fields Hpt Hct Hq.
    + exists n, (CFill e). flow_fields Hpt Hct Hq.
  - (* CFill *)
    exists n, CPost. flow_fields Hpt Hct Hq.
    + discriminate.
    + intros k Hk. unfold count in Hk. simpl in Hk.
      assert (k = n) by lia. subst k. apply Hhand. reflexivity.
  - (* CPost *)
    exists n, CDone. flow_fields Hpt Hct Hq.
  - (* CDone *)
    exists (S n), CIdle. constructor.
    + constructor; try solve [inv_field Hpt Hct Hq].
      unfold ctrace in *. simpl trace. rewrite Hct, concat_repeat_snoc.
      simpl. rewrite app_nil_r. reflexivity.
    + cbn [pending started]. rewrite Hpend.
      replace (S n + 0) with (n + 1) by lia. reflexivity.
    + discriminate.
    + simpl. intros k Hk. apply Hslot. unfold count in *. simpl in *. lia.
    + exact Hans.
Qed.

Lemma flow_step_consumer q0 es s vs p n c :
  Flow q0 es s vs p n c -> Flow q0 es (step Consumer s) vs p n c.
Proof.
  intros [I Hpend Hhand Hslot Hans].
  constructor; try assumption.
  - apply inv_step_consumer. exact I.
  - unfold step, step_consumer. destruct (gvl s) as [[| |]|]; exact Hpend.
  - unfold step, step_consumer. destruct (gvl s) as [[| |]|]; exact Hslot.
Qed.

(** Every state a schedule leads to from the start satisfies the invariant
    with the events. *)
Lemma flow_run q0 e0 es sched :
  exists vs p n c, Flow q0 es (run sched (init q0 e0 es)) vs p n c.
Proof.
  induction sched as [|t sched IH] using rev_ind.
  - exists [], PWaitRelease, 0, CIdle. apply flow_init.
  - destruct IH as (vs & p & n & c & F). rewrite run_snoc. destruct t.
    + destruct (flow_step_producer F) as (vs' & p' & F'). eauto.
    + destruct (flow_step_callback F) as (n' & c' & F'). eauto.
    + pose proof (flow_step_consumer F). eauto.
Qed.

Lemma before_nil_app vs l :
  Forall (fun v => v <> Qnil) vs -> before_nil (vs ++ l) = vs ++ before_nil l.
Proof.
  induction 1 as [|v vs Hv _ IH]; simpl; [reflexivity|].
  apply Z.eqb_neq in Hv. rewrite Hv, IH. reflexivity.
Qed.

Lemma before_nil_nil l : before_nil (Qnil :: l) = [].
Proof. simpl. rewrite Z.eqb_refl. reflexivity. Qed.

Lemma count_handler_results l : count is_handler l = length (handler_results l).
Proof.
  unfold count. induction l as [|o l IH]; simpl; [reflexivity|].
  destruct o; simpl; rewrite ?IH; reflexivity.
Qed.

(** The events up to the first one whose handler answers [Qnil]. *)
Lemma events_up_to_nil es :
  In Qnil (answers es) ->
  exists es1 rest,
    es = es1 ++ rest /\
    answers es1 = before_nil (answers es) ++ [Qnil] /\
    length es1 = S (length (before_nil (answers es))).
Proof.
  induction es as [|e es IH]; intros Hin; [contradiction|].
  simpl in Hin |- *. destruct (Z.eqb_spec (handler e (data e)) Qnil) as [Hv|Hv].
  - exists [e], es. simpl. rewrite Hv. auto.
  - destruct Hin as [Hin|Hin]; [congruence|].
    destruct (IH Hin) as (es1 & rest & -> & Ha & Hl).
    exists (e :: es1), rest. simpl. rewrite Ha, Hl. auto.
Qed.

(** ** Further properties of the bridge *)

(** X1.  Under every schedule the handler's answers so far, in the order
    of the calls, are the answers of the first events supplied: each
    event is dispatched at most once, in the order of supply, and none is
    skipped.  So the handler is never called more often than there are
    events, and never when there is none. *)
Theorem answers_in_order_of_supply q0 e0 es sched :
  let s := run sched (init q0 e0 es) in
  (exists rest, answers es = handler_results (ptrace s) ++ rest) /\
  count is_handler (ptrace s) <= length es.
Proof.
  intros s. subst s.
  destruct (flow_run q0 e0 es sched) as (vs & p & n & c & F).
  assert (H : exists rest,
             answers es
             = handler_results (ptrace (run sched (init q0 e0 es))) ++ rest).
  { destruct (flow_answers F) as (rest & Hans). exists rest.
    rewrite (inv_ptrace (flow_inv F)), handler_results_app,
      handler_results_cycles, <- app_assoc. exact Hans. }
  split; [exact H|]. destruct H as (rest & H).
  rewrite count_handler_results.
  apply (f_equal (@length VALUE)) in H. unfold answers in H.
  rewrite length_map, length_app in H. lia.
Qed.

(** X2.  Under every schedule the queue is a prefix of what it will be at
    the end: its initial content followed by the answers of the events up
    to the first [Qnil].  Nothing else is ever pushed, and nothing out of
    order. *)
Theorem queue_is_prefix_of_outcome q0 e0 es sched :
  let s := run sched (init q0 e0 es) in
  exists rest,
    q0 ++ before_nil (answers es) = event_queue (session_data s) ++ rest.
Proof.
  intros s. subst s.
  destruct (flow_run q0 e0 es sched) as (vs & p & n & c & F).
  pose proof (flow_inv F) as I.
  destruct (flow_answers F) as (rest & Hans).
  pose proof (inv_nonnil I) as Hnn. pose proof (inv_carried I) as Hcar.
  rewrite (inv_queue I), Hans, (before_nil_app _ Hnn).
  destruct p; simpl in Hcar |- *;
    try (eexists; rewrite <- !app_assoc; simpl; reflexivity).
  all: (assert (Hv : (v =? Qnil)%Z = false)
         by (apply Z.eqb_neq; apply Hcar; reflexivity));
    rewrite Hv; eexists; rewrite <- !app_assoc; simpl; reflexivity.
Qed.

(** X3.  If the producer has returned, then some event's handler
    answered [Qnil], the queue is its initial content followed by the
    answers of the events before that one, and the producer's whole log is
    one forwarding turn for each of these answers and the last turn:
    neither depends on the schedule. *)
Theorem outcome_at_return q0 e0 es sched v :
  let s := run sched (init q0 e0 es) in
  producer s = Exited v ->
  In Qnil (answers es) /\
  event_queue (session_data s) = q0 ++ before_nil (answers es) /\
  ptrace s = flat_map cycle (before_nil (answers es)) ++ last_cycle.
Proof.
  intros s Hex. subst s.
  destruct (flow_run q0 e0 es sched) as (vs & p & n & c & F).
  pose proof (flow_inv F) as I.
  destruct (flow_answers F) as (rest & Hans).
  pose proof (inv_nonnil I) as Hnn.
  rewrite (inv_code I) in Hex.
  destruct p; simpl in Hex; try discriminate Hex.
  simpl in Hans.
  assert (Hb : before_nil (answers es) = vs).
  { rewrite Hans, (before_nil_app _ Hnn), before_nil_nil. apply app_nil_r. }
  rewrite (inv_queue I), (inv_ptrace I), Hb. simpl.
  repeat split.
  - rewrite Hans. apply in_or_app. right. left. reflexivity.
  - rewrite app_nil_r. reflexivity.
Qed.

(** X4.  If some event's handler answers [Qnil], the fair schedule makes
    the producer return [Qtrue], with the queue holding its initial
    content followed by the answers of the events before that one: given
    its events the loop ends, it cannot spin or block for ever. *)
Theorem fair_schedule_returns q0 e0 es :
  In Qnil (answers es) ->
  let s := run (fair_schedule (answers es)) (init q0 e0 es) in
  producer s = Exited Qtrue /\
  event_queue (session_data s) = q0 ++ before_nil (answers es).
Proof.
  intros Hin.
  destruct (events_up_to_nil es Hin) as (es1 & rest & Hes & Ha & Hl).
  assert (Hhead : at_loop_head (init q0 e0 es)) by (repeat split).
  assert (Hnn : Forall (fun v => v <> Qnil) (before_nil (answers es))).
  { clear. induction (answers es) as [|v l IH]; simpl; [constructor|].
    destruct (Z.eqb_spec v Qnil); constructor; assumption. }
  assert (Hpend : pending (init q0 e0 es) = es1 ++ rest) by exact Hes.
  destruct (@fair_run_returns (init q0 e0 es) es1 _ rest Hhead Hpend Ha Hnn)
    as (H1 & H2 & _).
  unfold fair_schedule. rewrite <- Hl. cbv zeta in H1, H2 |- *.
  split; [exact H1 | exact H2].
Qed.

(** X5.  The two semaphores never hold more than one token between them:
    at any moment at most one of [event_full] and [event_empty] is 1 and
    the other is 0, whatever the schedule. *)
Theorem one_token_at_most q0 e0 es sched :
  let s := run sched (init q0 e0 es) in
  sem_count (session_data s) event_full
  + sem_count (session_data s) event_empty <= 1.
Proof.
  intros s. subst s.
  destruct (inv_run q0 e0 es sched) as (vs & p & n & c & I).
  pose proof (inv_full I) as Hf. pose proof (inv_empty I) as He.
  destruct p; destruct c; unfold count in *; simpl in *; lia.
Qed.

(** X6.  When the producer has returned, it holds the GVL, both
    semaphores are at 0, every event that reached the slot was
    dispatched, and the callback side completes no further operation: a
    callback that arrives from then on stays blocked in its wait on
    [event_empty]. *)
Theorem state_at_return q0 e0 es sched v :
  let s := run sched (init q0 e0 es) in
  producer s = Exited v ->
  gvl s = Some Producer /\
  sem_count (session_data s) event_full = 0 /\
  sem_count (session_data s) event_empty = 0 /\
  count is_fill (ctrace s) = count is_handler (ptrace s) /\
  forall o, ~ performs Callback s o.
Proof.
  intros s Hex. subst s.
  destruct (inv_run q0 e0 es sched) as (vs & p & n & c & I).
  pose proof (inv_full I) as Hf. pose proof (inv_empty I) as He.
  pose proof (inv_gvl I) as Hg.
  assert (Hh : forall w, count is_handler (cycle w) = 1) by reflexivity.
  rewrite (inv_code I) in Hex.
  destruct p; simpl in Hex; try discriminate Hex.
  split; [apply Hg; reflexivity|].
  rewrite (count_ptrace _ I Hh), (count_ctrace is_fill I).
  change (count is_fill cb_cycle) with 1.
  assert (Hc : sem_count (session_data (run sched (init q0 e0 es))) event_full = 0 /\
               sem_count (session_data (run sched (init q0 e0 es))) event_empty = 0 /\
               1 * n + count is_fill (cb_partial c)
               = 1 * length vs + count is_handler (partial PExited))
    by (destruct c; unfold count in *; simpl in *; lia).
  destruct Hc as (H1 & H2 & H3). repeat split; try assumption.
  intros o Hp. pose proof (callback_performs I Hp) as Hcb.
  destruct c; simpl in Hcb.
  - contradiction.
  - destruct Hcb as [_ Hcb]. apply Hcb. exact H2.
  - unfold count in *; simpl in *; lia.
  - unfold count in *; simpl in *; lia.
  - contradiction.
Qed.



End Bridge.


(** * The theorems at work

    Concrete runs with [Qnil] encoded as 4 and [Qtrue] as 2, as in Ruby
    1.9, over events that carry no data: the queue starts empty and the
    handlers of the events delivered answer the values listed. *)

#[local] Abbreviation run_with vs sched :=
  (run 4%Z 2%Z sched
     (init 4%Z [] (const_event tt 0%Z) (map (const_event tt) vs%Z))).

#[local] Abbreviation three_turns := (one_turn ++ one_turn ++ one_turn).

Lemma sink_holds_results_in_order_witness :
  (handler_results (ptrace (run_with [10; 11; 4] three_turns))
   = [10; 11] ++ [4] /\
   Forall (fun v : VALUE => v <> 4) [10; 11])%Z /\
  (event_queue (session_data (run_with [10; 11; 4] three_turns))
   = [] ++ [10; 11])%Z.
Proof.
  assert (H1 : (handler_results (ptrace (run_with [10; 11; 4] three_turns))
                = [10; 11] ++ [4])%Z) by (vm_compute; reflexivity).
  assert (H2 : Forall (fun v : VALUE => v <> 4%Z) [10; 11]%Z)
    by (repeat constructor; lia).
  split; [split; assumption|].
  exact (proj1 (@sink_holds_results_in_order unit 4%Z 2%Z [] _ _ _ _ H1 H2)).
Defined.



Lemma nil_ends_the_loop_witness :
  ptrace (run_with [4]%Z one_turn)
  = wait_ops ++ ObsHandler 4%Z :: [ObsReturn 2%Z] /\
  event_queue (session_data (run_with [4]%Z one_turn)) = [] /\
  count (is_post event_empty) (ptrace (run_with [4]%Z one_turn)) = 0.
Proof.
  assert (H : ptrace (run_with [4]%Z one_turn)
              = wait_ops ++ ObsHandler 4%Z :: [ObsReturn 2%Z])
    by (vm_compute; reflexivity).
  split; [exact H|].
  destruct (@nil_ends_the_loop unit 4%Z 2%Z [] _ _ _ _ _ H)
    as (_ & _ & _ & Hfirst).
  destruct (Hfirst eq_refl) as (Hq & _ & Hp).
  split; assumption.
Defined.

Lemma three_posts_two_values_witness :
  (10 <> 4 /\ 11 <> 4 /\ 4 = 4)%Z /\
  event_queue (session_data (run_with [10; 11; 4]%Z three_turns))
  = [] ++ [10; 11]%Z /\
  producer (run_with [10; 11; 4]%Z three_turns) = Exited unit 2%Z.
Proof.
  assert (HA : (10 <> 4)%Z) by lia.
  assert (HB : (11 <> 4)%Z) by lia.
  split; [repeat split; assumption|].
  destruct (@three_posts_two_values unit 4%Z 2%Z [] (const_event tt 0%Z)
              (const_event tt 10%Z) (const_event tt 11%Z) (const_event tt 4%Z)
              HA HB eq_refl)
    as (_ & (_ & _ & Hq & Hp) & _).
  split; assumption.
Defined.

Lemma producer_returns_only_after_nil_witness :
  producer (run_with [4]%Z one_turn) = Exited unit 2%Z /\ (2 = 2)%Z.
Proof.
  assert (H : producer (run_with [4]%Z one_turn) = Exited unit 2%Z)
    by (vm_compute; reflexivity).
  split; [exact H|].
  exact (proj1 (@producer_returns_only_after_nil unit 4%Z 2%Z [] _ _ _ _ H)).
Defined.


Lemma nil_never_pushed_witness :
  handler_results (ptrace (run_with [10; 11; 4]%Z three_turns))
  = [10; 11; 4]%Z /\
  ~ In (ObsPush 4%Z) (ptrace (run_with [10; 11; 4]%Z three_turns)) /\
  ~ In 4%Z (pushed_values (ptrace (run_with [10; 11; 4]%Z three_turns))).
Proof.
  split; [vm_compute; reflexivity|].
  destruct (@nil_never_pushed unit 4%Z 2%Z [] (const_event tt 0%Z)
              (map (const_event tt) [10; 11; 4]%Z) three_turns)
    as (H1 & _ & H3 & _).
  split; assumption.
Defined.

Lemma pushed_value_is_handler_result_witness :
  ptrace (run_with [10]%Z one_turn)
  = (wait_ops ++ [ObsHandler 10%Z]) ++ ObsPush 10%Z :: post_ops /\
  exists l0, wait_ops ++ [ObsHandler 10%Z] = l0 ++ [ObsHandler 10%Z].
Proof.
  assert (H : ptrace (run_with [10]%Z one_turn)
              = (wait_ops ++ [ObsHandler 10%Z]) ++ ObsPush 10%Z :: post_ops)
    by (vm_compute; reflexivity).
  split; [exact H|].
  exact (proj1 (@pushed_value_is_handler_result unit 4%Z 2%Z [] _ _ _)
           _ _ _ H).
Defined.

Lemma dispatches_bounded_by_posts_witness :
  count is_handler (ptrace (run_with [10; 11; 4]%Z three_turns)) = 3 /\
  count is_handler (ptrace (run_with [10; 11; 4]%Z three_turns))
  <= count (is_post event_full) (ctrace (run_with [10; 11; 4]%Z three_turns)).
Proof.
  split; [vm_compute; reflexivity|].
  destruct (@dispatches_bounded_by_posts unit 4%Z 2%Z [] (const_event tt 0%Z)
              (map (const_event tt) [10; 11; 4]%Z) three_turns)
    as (_ & _ & _ & _ & H).
  exact H.
Defined.


Lemma outcome_at_return_witness :
  producer (run_with [10; 11; 4]%Z three_turns) = Exited unit 2%Z /\
  event_queue (session_data (run_with [10; 11; 4]%Z three_turns))
  = [] ++ before_nil 4%Z (answers (map (const_event tt) [10; 11; 4]%Z)).
Proof.
  assert (H : producer (run_with [10; 11; 4]%Z three_turns) = Exited unit 2%Z)
    by (vm_compute; reflexivity).
  split; [exact H|].
  exact (proj1 (proj2 (@outcome_at_return unit 4%Z 2%Z [] _ _ _ _ H))).
Defined.

Lemma fair_schedule_returns_witness :
  In 4%Z (answers (map (const_event tt) [10; 11; 4; 12]%Z)) /\
  producer
    (run_with [10; 11; 4; 12]%Z
       (fair_schedule 4%Z (answers (map (const_event tt) [10; 11; 4; 12]%Z))))
  = Exited unit 2%Z.
Proof.
  assert (H : In 4%Z (answers (map (const_event tt) [10; 11; 4; 12]%Z)))
    by (right; right; left; reflexivity).
  split; [exact H|].
  exact (proj1 (@fair_schedule_returns unit 4%Z 2%Z [] (const_event tt 0%Z)
                  _ H)).
Defined.

Lemma state_at_return_witness :
  producer (run_with [10; 11; 4]%Z three_turns) = Exited unit 2%Z /\
  gvl (run_with [10; 11; 4]%Z three_turns) = Some Producer /\
  sem_count (session_data (run_with [10; 11; 4]%Z three_turns)) event_full = 0 /\
  sem_count (session_data (run_with [10; 11; 4]%Z three_turns)) event_empty = 0.
Proof.
  assert (H : producer (run_with [10; 11; 4]%Z three_turns) = Exited unit 2%Z)
    by (vm_compute; reflexivity).
  split; [exact H|].
  destruct (@state_at_return unit 4%Z 2%Z [] _ _ _ _ H) as (H1 & H2 & H3 & _).
  repeat split; assumption.
Defined.

